(** * LogScale (src/scale/Log.ts): a shallow embedding and its properties

    The logarithmic scale of the chart library keeps a data extent in
    log space, widens it from data, computes a nice tick interval and maps
    values to and from normalized coordinates.

    Numbers.  A JavaScript number is modelled as an extended real: [NaN],
    the two infinities, or a finite real.  Finite arithmetic is exact (no
    rounding, no overflow or underflow) and the two zeros are identified
    (every zero behaves as [+0]); the special values follow IEEE 754 and
    the ECMAScript definitions of [Math.log] and [Math.pow].  Statements
    that the documentation makes "up to rounding" are therefore stated
    here as exact equalities.

    Objects.  Arrays that the code updates in place are passed in and
    handed back: a method that writes into its argument returns the final
    contents of that argument next to the new scale. *)

From Stdlib Require Import Reals Lra Lia ZArith List Bool.
From Stdlib Require String.
Import ListNotations.

Open Scope R_scope.

(** ** JavaScript numbers *)

Inductive number : Type :=
| NaN : number
| PosInf : number
| NegInf : number
| Fin : R -> number.

Definition Rleb (a b : R) : bool := if Rle_dec a b then true else false.
Definition Rltb (a b : R) : bool := if Rlt_dec a b then true else false.
Definition Reqb (a b : R) : bool := if Req_dec_T a b then true else false.

(** The infinity of the given sign. *)
Definition infinity (negative : bool) : number :=
  if negative then NegInf else PosInf.

Definition isNaN (x : number) : bool :=
  match x with NaN => true | _ => false end.

(** [x <= y] *)
Definition le (x y : number) : bool :=
  match x, y with
  | NaN, _ | _, NaN => false
  | NegInf, _ | _, PosInf => true
  | PosInf, _ | _, NegInf => false
  | Fin a, Fin b => Rleb a b
  end.

(** [x < y] *)
Definition lt (x y : number) : bool :=
  match x, y with
  | NaN, _ | _, NaN => false
  | PosInf, _ | _, NegInf => false
  | NegInf, _ | _, PosInf => true
  | Fin a, Fin b => Rltb a b
  end.

(** [x >= y] and [x > y] *)
Definition ge (x y : number) : bool := le y x.
Definition gt (x y : number) : bool := lt y x.

(** [x === y] *)
Definition strictEq (x y : number) : bool :=
  match x, y with
  | PosInf, PosInf | NegInf, NegInf => true
  | Fin a, Fin b => Reqb a b
  | _, _ => false
  end.

(** A number is falsy when it is zero or [NaN]. *)
Definition truthy (x : number) : bool :=
  match x with
  | NaN => false
  | Fin r => negb (Reqb r 0)
  | _ => true
  end.

Definition add (x y : number) : number :=
  match x, y with
  | NaN, _ | _, NaN => NaN
  | PosInf, NegInf | NegInf, PosInf => NaN
  | PosInf, _ | _, PosInf => PosInf
  | NegInf, _ | _, NegInf => NegInf
  | Fin a, Fin b => Fin (a + b)
  end.

Definition sub (x y : number) : number :=
  match x, y with
  | NaN, _ | _, NaN => NaN
  | PosInf, PosInf | NegInf, NegInf => NaN
  | PosInf, _ | _, NegInf => PosInf
  | NegInf, _ | _, PosInf => NegInf
  | Fin a, Fin b => Fin (a - b)
  end.

Definition mul (x y : number) : number :=
  match x, y with
  | NaN, _ | _, NaN => NaN
  | PosInf, PosInf | NegInf, NegInf => PosInf
  | PosInf, NegInf | NegInf, PosInf => NegInf
  | PosInf, Fin a | Fin a, PosInf =>
      if Reqb a 0 then NaN else infinity (Rltb a 0)
  | NegInf, Fin a | Fin a, NegInf =>
      if Reqb a 0 then NaN else infinity (negb (Rltb a 0))
  | Fin a, Fin b => Fin (a * b)
  end.

Definition div (x y : number) : number :=
  match x, y with
  | NaN, _ | _, NaN => NaN
  | PosInf, PosInf | PosInf, NegInf | NegInf, PosInf | NegInf, NegInf => NaN
  | PosInf, Fin b => infinity (Rltb b 0)
  | NegInf, Fin b => infinity (negb (Rltb b 0))
  | Fin _, PosInf | Fin _, NegInf => Fin 0
  | Fin a, Fin b =>
      if Reqb b 0
      then (if Reqb a 0 then NaN else infinity (Rltb a 0))
      else Fin (a / b)
  end.

(** [Math.abs], [Math.floor], [Math.ceil] *)
Definition mathAbs (x : number) : number :=
  match x with
  | NaN => NaN
  | PosInf | NegInf => PosInf
  | Fin r => Fin (Rabs r)
  end.

Definition mathFloor (x : number) : number :=
  match x with
  | Fin r => Fin (IZR (Zfloor r))
  | _ => x
  end.

Definition mathCeil (x : number) : number :=
  match x with
  | Fin r => Fin (IZR (Zceil r))
  | _ => x
  end.

(** [Math.log]: the natural logarithm; [NaN] below zero, [-Infinity] at
    zero. *)
Definition mathLog (x : number) : number :=
  match x with
  | NaN | NegInf => NaN
  | PosInf => PosInf
  | Fin r =>
      if Rltb r 0 then NaN
      else if Reqb r 0 then NegInf
      else Fin (ln r)
  end.

(** Whether a real is an integer, and whether it is an odd one. *)
Definition isInteger (r : R) : bool := Reqb (IZR (Zfloor r)) r.
Definition isOddInteger (r : R) : bool := isInteger r && Z.odd (Zfloor r).

(** [Math.pow] on finite arguments. *)
Definition powFinite (b e : R) : number :=
  if Reqb e 0 then Fin 1
  else if Reqb b 0 then (if Rltb 0 e then Fin 0 else PosInf)
  else if Rltb 0 b then Fin (Rpower b e)
  else if isInteger e
       then Fin ((if isOddInteger e then -1 else 1) * Rpower (- b) e)
       else NaN.

(** [Math.pow(b, e)], by the cases of the ECMAScript definition. *)
Definition mathPow (b e : number) : number :=
  match e with
  | NaN => NaN
  | PosInf =>
      match b with
      | NaN => NaN
      | PosInf | NegInf => PosInf
      | Fin r =>
          if Rltb 1 (Rabs r) then PosInf
          else if Reqb (Rabs r) 1 then NaN
          else Fin 0
      end
  | NegInf =>
      match b with
      | NaN => NaN
      | PosInf | NegInf => Fin 0
      | Fin r =>
          if Rltb 1 (Rabs r) then Fin 0
          else if Reqb (Rabs r) 1 then NaN
          else PosInf
      end
  | Fin x =>
      if Reqb x 0 then Fin 1
      else
        match b with
        | NaN => NaN
        | PosInf => if Rltb 0 x then PosInf else Fin 0
        | NegInf =>
            if Rltb 0 x
            then (if isOddInteger x then NegInf else PosInf)
            else Fin 0
        | Fin r => powFinite r x
        end
  end.

(** ** Extents and ticks *)

(** A two-element array [[min, max]]. *)
Definition Extent : Type := (number * number)%type.

Record ScaleTick : Type := mkTick { value : number }.

Definition DimensionName : Type := String.string.

(** The tabular data accessor: only its approximate range per dimension
    is used. *)
Record SeriesData : Type := mkSeriesData {
  getApproximateExtent : DimensionName -> Extent
}.

(** ** Collaborators that are not part of the source file *)

Module scaleHelper.

(** Modelled from the spec: [helper.contain] is missing from the
    sources; "inclusive range test". *)
Definition contain (val : number) (extent : Extent) : bool :=
  ge val (fst extent) && le val (snd extent).

(** Modelled from the spec: [helper.normalize] is missing from the
    sources; "linear interpolation of value into [0,1] over extent". *)
Definition normalize (val : number) (extent : Extent) : number :=
  div (sub val (fst extent)) (sub (snd extent) (fst extent)).

(** Modelled from the spec: [helper.scale] is missing from the sources;
    "inverse linear interpolation". *)
Definition scale (val : number) (extent : Extent) : number :=
  add (mul val (sub (snd extent) (fst extent))) (fst extent).

End scaleHelper.

Module Scale.

(** Modelled from the spec: the constructor of the generic scale is
    missing from the sources; a scale starts with "an empty/default
    extent", the neutral element of widening. *)
Definition emptyExtent : Extent := (PosInf, NegInf).

(** Modelled from the spec: [Scale.prototype.getExtent] is missing from
    the sources; the "pair-read" primitive hands out a copy of the
    stored pair, so a caller that writes into the result leaves the
    scale alone ("pure query; no mutation"). *)
Definition getExtent (extent : Extent) : Extent := extent.

(** Modelled from the spec: [Scale.prototype.unionExtent] is missing from
    the sources; "takes the elementwise min of the two minimums and max
    of the two maximums -- widening, never narrowing".  The bounds are
    compared with [<] and [>], so a [NaN] bound never replaces a stored
    one. *)
Definition unionExtent (extent other : Extent) : Extent :=
  (if lt (fst other) (fst extent) then fst other else fst extent,
   if gt (snd other) (snd extent) then snd other else snd extent).

End Scale.

Module IntervalScale.

(** Of the linear scale held as [_originalScale] only the extent is
    read. *)
Record t : Type := mk { extent : Extent }.

Definition create : t := mk Scale.emptyExtent.

Definition getExtent (self : t) : Extent := Scale.getExtent (extent self).

Definition unionExtent (self : t) (other : Extent) : t :=
  mk (Scale.unionExtent (extent self) other).

(** Modelled from the spec: [IntervalScale.prototype.setExtent] is
    missing from the sources; it "simply stores the pair as given,
    performing no additional reordering or validation". *)
Definition setExtent (thisExtent : Extent) (start end_ : number) : Extent :=
  (start, end_).

End IntervalScale.

(** ** The LogScale object *)

Record LogScale : Type := mkLogScale {
  base : number;
  _extent : Extent;
  _originalScale : IntervalScale.t;
  _fixMin : bool;
  _fixMax : bool;
  _interval : number;
  _niceExtent : option Extent
}.

(** [new LogScale()]: base 10, the empty extent of the generic scale, a
    fresh linear scale, interval 0; the fix flags and the nice extent are
    left undefined (an undefined flag is falsy). *)
Definition newLogScale : LogScale :=
  {| base := Fin 10;
     _extent := Scale.emptyExtent;
     _originalScale := IntervalScale.create;
     _fixMin := false;
     _fixMax := false;
     _interval := Fin 0;
     _niceExtent := None |}.

Definition withExtent (self : LogScale) (e : Extent) : LogScale :=
  {| base := base self;
     _extent := e;
     _originalScale := _originalScale self;
     _fixMin := _fixMin self;
     _fixMax := _fixMax self;
     _interval := _interval self;
     _niceExtent := _niceExtent self |}.

Definition withOriginalScale (self : LogScale) (o : IntervalScale.t)
  : LogScale :=
  {| base := base self;
     _extent := _extent self;
     _originalScale := o;
     _fixMin := _fixMin self;
     _fixMax := _fixMax self;
     _interval := _interval self;
     _niceExtent := _niceExtent self |}.

Definition withFix (self : LogScale) (fmin fmax : bool) : LogScale :=
  {| base := base self;
     _extent := _extent self;
     _originalScale := _originalScale self;
     _fixMin := fmin;
     _fixMax := fmax;
     _interval := _interval self;
     _niceExtent := _niceExtent self |}.

Definition withNiceTicks (self : LogScale) (interval : number)
  (niceExtent : Extent) : LogScale :=
  {| base := base self;
     _extent := _extent self;
     _originalScale := _originalScale self;
     _fixMin := _fixMin self;
     _fixMax := _fixMax self;
     _interval := interval;
     _niceExtent := Some niceExtent |}.

(** The options record of [calcNiceExtent]; optional fields may be
    absent. *)
Record NiceExtentOpt : Type := mkNiceExtentOpt {
  splitNumber : number;
  fixMin : option bool;
  fixMax : option bool;
  minInterval : option number;
  maxInterval : option number
}.

(** The numeric utilities ([util/number]) are missing from the sources;
    the scale is written against this interface.  [round x None] is the
    call without a precision. *)
Class NumberUtil : Type := {
  round : number -> option nat -> number;
  quantity : number -> number;
  getPrecision : number -> nat
}.

(** The two algorithms borrowed from the prototype of the linear scale and
    run on the LogScale object itself; both are missing from the sources
    and described by the spec only as delegates.  The tick generator
    reads the object and returns the tick list. *)
Class IntervalScaleProto : Type := {
  intervalGetTicks : LogScale -> bool -> list ScaleTick;
  intervalCalcNiceExtent : LogScale -> NiceExtentOpt -> LogScale
}.

Section LogScaleMethods.

Context {NU : NumberUtil} {IP : IntervalScaleProto}.

Definition fixRoundingError (val originalVal : number) : number :=
  round val (Some (getPrecision originalVal)).

(** The conversion applied by [getTicks] to one delegated tick. *)
Definition tickToLinear (self : LogScale) (tick : ScaleTick) : ScaleTick :=
  let extent := _extent self in
  let originalExtent := IntervalScale.getExtent (_originalScale self) in
  let val := value tick in
  let powVal := round (mathPow (base self) val) None in
  let powVal :=
    if strictEq val (fst extent) && _fixMin self
    then fixRoundingError powVal (fst originalExtent)
    else powVal in
  let powVal :=
    if strictEq val (snd extent) && _fixMax self
    then fixRoundingError powVal (snd originalExtent)
    else powVal in
  mkTick powVal.

Definition getTicks (self : LogScale) (expandToNicedExtent : bool)
  : list ScaleTick :=
  let extent := _extent self in
  let ticks := intervalGetTicks self expandToNicedExtent in
  let hasZero := le (fst extent) (Fin 0) in
  let finalTicks := map (tickToLinear self) ticks in
  if hasZero then mkTick (Fin 0) :: finalTicks else finalTicks.

Definition setExtent (self : LogScale) (start end_ : number) : LogScale :=
  let base := mathLog (base self) in
  let start :=
    if le start (Fin 0) then Fin 0 else div (mathLog start) base in
  let end_ :=
    if le end_ (Fin 0) then Fin 0 else div (mathLog end_) base in
  withExtent self (IntervalScale.setExtent (_extent self) start end_).

Definition getExtent (self : LogScale) : Extent :=
  let base := base self in
  let extent := Scale.getExtent (_extent self) in
  let extent := (mathPow base (fst extent), snd extent) in
  let extent := (fst extent, mathPow base (snd extent)) in
  let originalExtent := IntervalScale.getExtent (_originalScale self) in
  let extent :=
    if _fixMin self
    then (fixRoundingError (fst extent) (fst originalExtent), snd extent)
    else extent in
  let extent :=
    if _fixMax self
    then (fst extent, fixRoundingError (snd extent) (snd originalExtent))
    else extent in
  extent.

(** The log-space image that [unionExtent] writes back into one slot of
    its argument. *)
Definition logOrZero (base v : number) : number :=
  if le v (Fin 0) then Fin 0 else div (mathLog v) (mathLog base).

(** [unionExtent(extent)]: returns the new scale and the final contents
    of the argument array. *)
Definition unionExtent (self : LogScale) (extent : Extent)
  : LogScale * Extent :=
  let self :=
    withOriginalScale self
      (IntervalScale.unionExtent (_originalScale self) extent) in
  let base := base self in
  let extent := (logOrZero base (fst extent), snd extent) in
  let extent := (fst extent, logOrZero base (snd extent)) in
  (withExtent self (Scale.unionExtent (_extent self) extent), extent).

(** [unionExtentFromData(data, dim)]: returns the new scale and the final
    contents of the array obtained from the accessor. *)
Definition unionExtentFromData (self : LogScale) (data : SeriesData)
  (dim : DimensionName) : LogScale * Extent :=
  let extent := getApproximateExtent data dim in
  let extent :=
    if le (fst extent) (Fin 0) then (Fin 0, snd extent) else extent in
  let extent :=
    if le (snd extent) (Fin 0) then (fst extent, Fin 0) else extent in
  unionExtent self extent.

(** The guard of the [while] loop of [calcNiceTicks]. *)
Definition growGuard (interval : number) : bool :=
  negb (isNaN interval)
  && lt (mathAbs interval) (Fin 1)
  && gt (mathAbs interval) (Fin 0).

(** The [while] loop of [calcNiceTicks]; [None] when the fuel runs out
    before the guard fails. *)
Fixpoint growInterval (fuel : nat) (interval : number) : option number :=
  if growGuard interval
  then match fuel with
       | O => None
       | S fuel' => growInterval fuel' (mul interval (Fin 10))
       end
  else Some interval.

(** The value of [interval] when control reaches the [while] loop. *)
Definition seedInterval (approxTickNum span : number) : number :=
  let interval := quantity span in
  let err := mul (div approxTickNum span) interval in
  if le err (Fin 0.5) then mul interval (Fin 10) else interval.

Definition calcNiceTicks (fuel : nat) (self : LogScale)
  (approxTickNum : number) : option LogScale :=
  let approxTickNum :=
    if truthy approxTickNum then approxTickNum else Fin 10 in
  let extent := _extent self in
  let span := sub (snd extent) (fst extent) in
  if strictEq span PosInf || le span (Fin 0) then Some self
  else
    match growInterval fuel (seedInterval approxTickNum span) with
    | None => None
    | Some interval =>
        let niceExtent :=
          (round (mul (mathCeil (div (fst extent) interval)) interval) None,
           round (mul (mathFloor (div (snd extent) interval)) interval) None)
        in
        Some (withNiceTicks self interval niceExtent)
    end.

(** An absent (undefined) flag is stored as such and read as falsy. *)
Definition flag (b : option bool) : bool :=
  match b with Some v => v | None => false end.

Definition calcNiceExtent (self : LogScale) (opt : NiceExtentOpt)
  : LogScale :=
  let self := intervalCalcNiceExtent self opt in
  withFix self (flag (fixMin opt)) (flag (fixMax opt)).

Definition parse (val : number) : number := val.

Definition contain (self : LogScale) (val : number) : bool :=
  if le val (Fin 0) then false
  else
    let val := div (mathLog val) (mathLog (base self)) in
    scaleHelper.contain val (_extent self).

Definition normalize (self : LogScale) (val : number) : number :=
  let val := if le val (Fin 0) then Fin 0.01 else val in
  let val := div (mathLog val) (mathLog (base self)) in
  scaleHelper.normalize val (_extent self).

Definition scale (self : LogScale) (val : number) : number :=
  let val := if le val (Fin 0) then Fin 0.01 else val in
  let val := scaleHelper.scale val (_extent self) in
  mathPow (base self) val.

End LogScaleMethods.

(** ** A reference implementation of the numeric utilities *)

Module numberUtil.

(** Rounding of a real to [p] decimal places, to the nearest. *)
Definition roundTo (p : nat) (r : R) : R :=
  IZR (Zfloor (r * 10 ^ p + / 2)) / 10 ^ p.

(** Modelled from the spec: [numberUtil.round] is missing from the
    sources; it "rounds a number, optionally to a given decimal-place
    count, correcting floating-point drift".  Exact arithmetic has no
    drift to correct, so the call without a precision returns its
    argument. *)
Definition round (x : number) (precision : option nat) : number :=
  match precision, x with
  | Some p, Fin r => Fin (roundTo p r)
  | _, _ => x
  end.

(** Modelled from the spec: [numberUtil.quantity] is missing from the
    sources; it "returns a nice order-of-magnitude step (leading digit
    1/2/5 x power of ten) for a numeric span" and "does not return
    fractional magnitudes smaller than the span's order of magnitude":
    here the power of ten at the order of magnitude of the span. *)
Definition quantity (span : number) : number :=
  mathPow (Fin 10) (mathFloor (div (mathLog span) (mathLog (Fin 10)))).

(** The least [n], counted from [n] on and at most [fuel] steps further,
    for which [r * 10 ^ n] is an integer. *)
Fixpoint decimalPlaces (fuel n : nat) (r : R) : nat :=
  match fuel with
  | O => n
  | S fuel' =>
      if isInteger (r * 10 ^ n) then n else decimalPlaces fuel' (S n) r
  end.

(** Modelled from the spec: [numberUtil.getPrecision] is missing from the
    sources; it "returns the number of significant decimal places in a
    literal value".  The search stops after 20 places: a double carries
    at most 17 significant decimal digits. *)
Definition getPrecision (x : number) : nat :=
  match x with
  | Fin r => decimalPlaces 20 0 r
  | _ => 0%nat
  end.

End numberUtil.

(** The reference utilities as an implementation of the interface. *)
Definition specNumberUtil : NumberUtil :=
  {| round := numberUtil.round;
     quantity := numberUtil.quantity;
     getPrecision := numberUtil.getPrecision |}.

(** A stand-in for the borrowed linear-scale algorithms: the tick
    generator reports the given log-space positions and the nice-extent
    algorithm leaves the object alone. *)
Definition fixedTicks (positions : list number) : IntervalScaleProto :=
  {| intervalGetTicks := fun _ _ => map mkTick positions;
     intervalCalcNiceExtent := fun self _ => self |}.

(** ** Comparisons of reals as booleans *)

Lemma Rleb_true (a b : R) : a <= b -> Rleb a b = true.
Proof. intros Hab. unfold Rleb. destruct (Rle_dec a b); [reflexivity | contradiction]. Qed.

Lemma Rleb_false (a b : R) : b < a -> Rleb a b = false.
Proof. intros Hab. unfold Rleb. destruct (Rle_dec a b); [lra | reflexivity]. Qed.

Lemma Rltb_true (a b : R) : a < b -> Rltb a b = true.
Proof. intros Hab. unfold Rltb. destruct (Rlt_dec a b); [reflexivity | contradiction]. Qed.

Lemma Rltb_false (a b : R) : b <= a -> Rltb a b = false.
Proof. intros Hab. unfold Rltb. destruct (Rlt_dec a b); [lra | reflexivity]. Qed.

Lemma Reqb_true (a b : R) : a = b -> Reqb a b = true.
Proof. intros Hab. unfold Reqb. destruct (Req_dec_T a b); [reflexivity | contradiction]. Qed.

Lemma Reqb_false (a b : R) : a <> b -> Reqb a b = false.
Proof. intros Hab. unfold Reqb. destruct (Req_dec_T a b); [contradiction | reflexivity]. Qed.

Lemma Rleb_le (a b : R) : Rleb a b = true -> a <= b.
Proof. unfold Rleb. destruct (Rle_dec a b); [trivial | discriminate]. Qed.

Lemma Rleb_gt (a b : R) : Rleb a b = false -> b < a.
Proof. unfold Rleb. destruct (Rle_dec a b); [discriminate | lra]. Qed.

Lemma Rltb_lt (a b : R) : Rltb a b = true -> a < b.
Proof. unfold Rltb. destruct (Rlt_dec a b); [trivial | discriminate]. Qed.

Lemma Rltb_ge (a b : R) : Rltb a b = false -> b <= a.
Proof. unfold Rltb. destruct (Rlt_dec a b); [discriminate | lra]. Qed.

Lemma Reqb_eq (a b : R) : Reqb a b = true -> a = b.
Proof. unfold Reqb. destruct (Req_dec_T a b); [trivial | discriminate]. Qed.

Lemma Reqb_neq (a b : R) : Reqb a b = false -> a <> b.
Proof. unfold Reqb. destruct (Req_dec_T a b); [discriminate | trivial]. Qed.

(** Case analysis on every real comparison in the goal, each case with
    the ordering fact in the context. *)
Ltac split_R :=
  repeat match goal with
  | |- context [Rleb ?a ?b] =>
      let H := fresh "Hle" in
      destruct (Rleb a b) eqn:H;
      [apply Rleb_le in H | apply Rleb_gt in H]
  | |- context [Rltb ?a ?b] =>
      let H := fresh "Hlt" in
      destruct (Rltb a b) eqn:H;
      [apply Rltb_lt in H | apply Rltb_ge in H]
  | |- context [Reqb ?a ?b] =>
      let H := fresh "Heq" in
      destruct (Reqb a b) eqn:H;
      [apply Reqb_eq in H | apply Reqb_neq in H]
  end.

(** Settles real comparisons whose outcome linear arithmetic decides. *)
Ltac decide_R :=
  repeat match goal with
  | |- context [Rleb ?a ?b] =>
      first [rewrite (Rleb_true a b) by lra | rewrite (Rleb_false a b) by lra]
  | |- context [Rltb ?a ?b] =>
      first [rewrite (Rltb_true a b) by lra | rewrite (Rltb_false a b) by lra]
  | |- context [Reqb ?a ?b] =>
      first [rewrite (Reqb_true a b) by lra | rewrite (Reqb_false a b) by lra]
  end.

(** ** Facts about logarithms and powers *)

Arguments mathPow : simpl never.
Arguments mathLog : simpl never.

Lemma ln_pos (x : R) : 1 < x -> 0 < ln x.
Proof. intros Hx. rewrite <- ln_1. apply ln_increasing; lra. Qed.

Lemma ln_10_pos : 0 < ln 10.
Proof. apply ln_pos; lra. Qed.

Lemma ln_le (x y : R) : 0 < x -> x <= y -> ln x <= ln y.
Proof.
  intros Hx [Hlt | Heq].
  - left. now apply ln_increasing.
  - subst. right. reflexivity.
Qed.

(** On a positive finite base [Math.pow] is the real power, the zero
    exponent included. *)
Lemma mathPow_pos (b e : R) :
  0 < b -> mathPow (Fin b) (Fin e) = Fin (Rpower b e).
Proof.
  intros Hb. unfold mathPow, powFinite.
  destruct (Reqb e 0) eqn:He.
  - apply Reqb_eq in He. subst e. now rewrite Rpower_O.
  - rewrite (Reqb_false b 0) by lra. now rewrite (Rltb_true 0 b).
Qed.

Lemma mathPow_zero (b : number) : mathPow b (Fin 0) = Fin 1.
Proof. unfold mathPow. now rewrite Reqb_true. Qed.

Lemma Rpower_log (b v : R) :
  0 < b -> b <> 1 -> 0 < v -> Rpower b (ln v / ln b) = v.
Proof.
  intros Hb Hb1 Hv. unfold Rpower.
  replace (ln v / ln b * ln b) with (ln v).
  - now apply exp_ln.
  - field. now apply ln_neq_0.
Qed.

Lemma mathLog_pos (v : R) : 0 < v -> mathLog (Fin v) = Fin (ln v).
Proof.
  intros Hv. unfold mathLog.
  rewrite (Rltb_false v 0) by lra. now rewrite (Reqb_false v 0) by lra.
Qed.

(** The log-space image of a positive value on a positive base other
    than 1. *)
Lemma logb_pos (b v : R) :
  0 < b -> b <> 1 -> 0 < v ->
  div (mathLog (Fin v)) (mathLog (Fin b)) = Fin (ln v / ln b).
Proof.
  intros Hb Hb1 Hv. rewrite !mathLog_pos by assumption. unfold div.
  rewrite Reqb_false; [reflexivity | now apply ln_neq_0].
Qed.

Lemma lt_le (x y : number) : lt x y = true -> le x y = true.
Proof.
  destruct x, y; simpl; try easy.
  intros H. apply Rltb_lt in H. apply Rleb_true. lra.
Qed.

(** ** Extent queries after widening *)

(** C1 (as the code has it): on a scale with base 10, the minimum fix
    flag unset and a stored log-space minimum that is not below 0 (the
    fresh scale in particular), [unionExtent([-5, 100])] followed by
    [getExtent()] reports the minimum 1: the negative bound is stored as
    the log-space sentinel 0 and read back as [10 ^ 0]. *)
Theorem unionExtent_negative_min_reads_one
  {NU : NumberUtil} (s : LogScale) :
  base s = Fin 10 ->
  _fixMin s = false ->
  le (Fin 0) (fst (_extent s)) = true ->
  fst (getExtent (fst (unionExtent s (Fin (-5), Fin 100)))) = Fin 1.
Proof.
  intros Hbase Hfix Hmin.
  unfold getExtent, unionExtent, Scale.getExtent, Scale.unionExtent, logOrZero.
  simpl. rewrite Hbase, Hfix.
  rewrite (Rleb_true (-5) 0) by lra.
  assert (Hpow : mathPow (Fin 10)
            (if lt (Fin 0) (fst (_extent s)) then Fin 0 else fst (_extent s))
          = Fin 1).
  { destruct (fst (_extent s)) as [| | |r]; cbn [le lt] in *;
      try discriminate.
    - apply mathPow_zero.
    - apply Rleb_le in Hmin.
      destruct (Rltb 0 r) eqn:Hr.
      + apply mathPow_zero.
      + apply Rltb_ge in Hr. replace r with 0 by lra. apply mathPow_zero. }
  destruct (_fixMax s); simpl; exact Hpow.
Qed.

Lemma unionExtent_negative_min_reads_one_witness :
  base newLogScale = Fin 10 /\
  _fixMin newLogScale = false /\
  le (Fin 0) (fst (_extent newLogScale)) = true /\
  fst (@getExtent specNumberUtil
         (fst (unionExtent newLogScale (Fin (-5), Fin 100)))) = Fin 1.
Proof.
  repeat split; try reflexivity.
  apply (@unionExtent_negative_min_reads_one specNumberUtil newLogScale);
    reflexivity.
Defined.

(** C1 as stated fails: on the fresh base-10 scale the minimum reported
    after [unionExtent([-5, 100])] is not 0. *)
Lemma unionExtent_negative_min_not_zero :
  fst (@getExtent specNumberUtil
         (fst (unionExtent newLogScale (Fin (-5), Fin 100)))) <> Fin 0.
Proof.
  unfold getExtent, unionExtent, Scale.getExtent, Scale.unionExtent, logOrZero.
  simpl. rewrite (Rleb_true (-5) 0) by lra. simpl.
  rewrite mathPow_zero. intros H. injection H as H. lra.
Qed.

(** ** Ticks *)

(** C2 (as the code has it): [getTicks] puts the synthetic tick 0 in front
    of the converted delegated ticks exactly when the stored log-space
    minimum is [<= 0]; otherwise it returns the converted ticks alone. *)
Theorem getTicks_zero_tick_iff_log_min
  {NU : NumberUtil} {IP : IntervalScaleProto} (s : LogScale) (expand : bool) :
  getTicks s expand =
    (if le (fst (_extent s)) (Fin 0) then [mkTick (Fin 0)] else [])
    ++ map (tickToLinear s) (intervalGetTicks s expand)
  /\ (getTicks s expand =
        mkTick (Fin 0) :: map (tickToLinear s) (intervalGetTicks s expand)
      <-> le (fst (_extent s)) (Fin 0) = true).
Proof.
  unfold getTicks. split.
  - destruct (le (fst (_extent s)) (Fin 0)); reflexivity.
  - destruct (le (fst (_extent s)) (Fin 0)); split; intros H;
      try reflexivity; try discriminate.
    apply (f_equal (@length ScaleTick)) in H. simpl in H. lia.
Qed.

(** C2 as stated fails: after [setExtent(1, 100)] on the fresh base-10
    scale the linear minimum reported by [getExtent] is not [<= 0], and
    yet [getTicks] puts the tick 0 in front. *)
Lemma getTicks_zero_tick_with_positive_min :
  let s := setExtent newLogScale (Fin 1) (Fin 100) in
  let IP := fixedTicks [Fin 0; Fin 1; Fin 2] in
  le (fst (@getExtent specNumberUtil s)) (Fin 0) = false /\
  @getTicks specNumberUtil IP s false =
    mkTick (Fin 0)
      :: map (@tickToLinear specNumberUtil s) (@intervalGetTicks IP s false).
Proof.
  assert (H1 : ln 1 / ln 10 = 0).
  { rewrite ln_1. unfold Rdiv. apply Rmult_0_l. }
  split.
  - unfold getExtent, setExtent, IntervalScale.setExtent, Scale.getExtent.
    simpl. decide_R. rewrite !mathLog_pos by lra. simpl.
    rewrite (Reqb_false (ln 10) 0) by (pose proof ln_10_pos; lra).
    rewrite H1, mathPow_zero. simpl. decide_R. reflexivity.
  - unfold getTicks, setExtent, IntervalScale.setExtent.
    simpl. decide_R. rewrite !mathLog_pos by lra. simpl.
    rewrite (Reqb_false (ln 10) 0) by (pose proof ln_10_pos; lra).
    rewrite H1. simpl. decide_R. reflexivity.
Qed.

(** ** Normalized coordinates *)

(** The normalized position of a positive value on a finite extent with
    distinct bounds, base positive and not 1. *)
Lemma normalize_pos (s : LogScale) (b v e0 e1 : R) :
  base s = Fin b -> 0 < b -> b <> 1 -> 0 < v ->
  _extent s = (Fin e0, Fin e1) -> e0 <> e1 ->
  normalize s (Fin v) = Fin ((ln v / ln b - e0) / (e1 - e0)).
Proof.
  intros Hbase Hb Hb1 Hv Hext Hne.
  unfold normalize, scaleHelper.normalize. rewrite Hbase, Hext.
  cbn [le]. rewrite (Rleb_false v 0) by lra.
  rewrite logb_pos by assumption. simpl.
  now rewrite (Reqb_false (e1 - e0) 0) by lra.
Qed.

(** The value at a positive normalized position on a finite extent, base
    positive. *)
Lemma scale_pos (s : LogScale) (b x e0 e1 : R) :
  base s = Fin b -> 0 < b -> 0 < x ->
  _extent s = (Fin e0, Fin e1) ->
  scale s (Fin x) = Fin (Rpower b (x * (e1 - e0) + e0)).
Proof.
  intros Hbase Hb Hx Hext.
  unfold scale, scaleHelper.scale. rewrite Hbase, Hext.
  cbn [le]. rewrite (Rleb_false x 0) by lra. simpl.
  now apply mathPow_pos.
Qed.

(** C3 (as the code has it): for a base above 1, a finite extent with
    [e0 < e1] and a positive value whose log-space image lies strictly
    above the minimum [e0], [scale (normalize v)] is [v]. *)
Theorem scale_normalize_roundtrip (s : LogScale) (b v e0 e1 : R) :
  base s = Fin b -> 1 < b -> 0 < v ->
  _extent s = (Fin e0, Fin e1) -> e0 < e1 ->
  e0 < ln v / ln b ->
  scale s (normalize s (Fin v)) = Fin v.
Proof.
  intros Hbase Hb Hv Hext He Hin.
  assert (Hlnb : 0 < ln b) by (apply ln_pos; lra).
  rewrite (normalize_pos s b v e0 e1) by (assumption || lra).
  assert (Hn : 0 < (ln v / ln b - e0) / (e1 - e0)).
  { apply Rdiv_lt_0_compat; lra. }
  rewrite (scale_pos s b _ e0 e1) by (assumption || lra).
  f_equal.
  replace ((ln v / ln b - e0) / (e1 - e0) * (e1 - e0) + e0)
    with (ln v / ln b) by (field; lra).
  apply Rpower_log; lra.
Qed.

Lemma scale_normalize_roundtrip_witness :
  let s := mkLogScale (Fin 10) (Fin 0, Fin 2) IntervalScale.create
             false false (Fin 0) None in
  scale s (normalize s (Fin 10)) = Fin 10.
Proof.
  apply (scale_normalize_roundtrip _ 10 10 0 2);
    try reflexivity; try lra.
  unfold Rdiv. rewrite Rinv_r; [lra | pose proof ln_10_pos; lra].
Defined.

(** C3 as stated fails at the minimum boundary: with the extent set by
    [setExtent(1, 100)] on the fresh base-10 scale, the value 1 does not
    come back from [scale (normalize 1)]. *)
Lemma scale_normalize_at_min_differs :
  let s := setExtent newLogScale (Fin 1) (Fin 100) in
  scale s (normalize s (Fin 1)) <> Fin 1.
Proof.
  assert (H1 : ln 1 / ln 10 = 0).
  { rewrite ln_1. unfold Rdiv. apply Rmult_0_l. }
  assert (H2 : 0 < ln 100 / ln 10).
  { apply Rdiv_lt_0_compat; [apply ln_pos; lra | apply ln_10_pos]. }
  assert (Hext : _extent (setExtent newLogScale (Fin 1) (Fin 100))
                 = (Fin 0, Fin (ln 100 / ln 10))).
  { unfold setExtent, IntervalScale.setExtent. simpl. decide_R.
    rewrite !mathLog_pos by lra. simpl.
    rewrite (Reqb_false (ln 10) 0) by (pose proof ln_10_pos; lra).
    now rewrite H1. }
  cbv zeta.
  rewrite (normalize_pos _ 10 1 0 (ln 100 / ln 10));
    [ | reflexivity | lra | lra | lra | exact Hext | lra ].
  rewrite H1.
  replace ((0 - 0) / (ln 100 / ln 10 - 0)) with 0
    by (unfold Rdiv; rewrite Rminus_diag; now rewrite Rmult_0_l).
  unfold scale, scaleHelper.scale. rewrite Hext. simpl. decide_R. simpl.
  rewrite mathPow_pos by lra.
  intros H. injection H as H.
  assert (Hlt : Rpower 10 0 < Rpower 10 (0.01 * (ln 100 / ln 10 - 0) + 0)).
  { apply Rpower_lt; lra. }
  rewrite Rpower_O in Hlt by lra. lra.
Qed.

(** C9: for a base above 1 and a finite extent with [e0 < e1], both
    [normalize] and [scale] are strictly increasing on positive inputs. *)
Theorem normalize_scale_increasing (s : LogScale) (b e0 e1 : R) :
  base s = Fin b -> 1 < b ->
  _extent s = (Fin e0, Fin e1) -> e0 < e1 ->
  (forall u v : R, 0 < u -> u < v ->
     lt (normalize s (Fin u)) (normalize s (Fin v)) = true)
  /\ (forall x y : R, 0 < x -> x < y ->
        lt (scale s (Fin x)) (scale s (Fin y)) = true).
Proof.
  intros Hbase Hb Hext He.
  assert (Hlnb : 0 < ln b) by (apply ln_pos; lra).
  split.
  - intros u v Hu Huv.
    rewrite (normalize_pos s b u e0 e1), (normalize_pos s b v e0 e1)
      by (assumption || lra).
    cbn [lt]. apply Rltb_true.
    assert (Hln : ln u < ln v) by (apply ln_increasing; lra).
    apply Rmult_lt_compat_r; [apply Rinv_0_lt_compat; lra | ].
    apply Rplus_lt_compat_r.
    apply Rmult_lt_compat_r; [now apply Rinv_0_lt_compat | exact Hln].
  - intros x y Hx Hxy.
    rewrite (scale_pos s b x e0 e1), (scale_pos s b y e0 e1)
      by (assumption || lra).
    cbn [lt]. apply Rltb_true.
    apply Rpower_lt; [exact Hb | ].
    apply Rplus_lt_compat_r. apply Rmult_lt_compat_r; lra.
Qed.

Lemma normalize_scale_increasing_witness :
  let s := mkLogScale (Fin 10) (Fin 0, Fin 2) IntervalScale.create
             false false (Fin 0) None in
  lt (normalize s (Fin 1)) (normalize s (Fin 10)) = true
  /\ lt (scale s (Fin 0.5)) (scale s (Fin 1)) = true.
Proof.
  cbv zeta.
  destruct (normalize_scale_increasing
              (mkLogScale (Fin 10) (Fin 0, Fin 2) IntervalScale.create
                 false false (Fin 0) None) 10 0 2) as [Hn Hs];
    try reflexivity; try lra.
  split; [apply Hn; lra | apply Hs; lra].
Defined.

(** ** Containment *)

(** C6: [contain] is false on every value [<= 0] (on 0 and -3 in
    particular) and true on every value whose log-space image lies
    strictly inside the stored extent. *)
Theorem contain_nonpositive_false_inside_true (s : LogScale) (v : number) :
  contain s (Fin 0) = false
  /\ contain s (Fin (-3)) = false
  /\ (le v (Fin 0) = true -> contain s v = false)
  /\ (lt (fst (_extent s)) (div (mathLog v) (mathLog (base s))) = true ->
      lt (div (mathLog v) (mathLog (base s))) (snd (_extent s)) = true ->
      contain s v = true).
Proof.
  unfold contain. repeat split.
  - cbn [le]. now rewrite Rleb_true by lra.
  - cbn [le]. now rewrite Rleb_true by lra.
  - intros H. now rewrite H.
  - intros Hlo Hhi.
    destruct (le v (Fin 0)) eqn:Hv.
    + exfalso.
      destruct v as [| | |r]; cbn [le] in Hv; try discriminate.
      apply Rleb_le in Hv. unfold mathLog at 1 in Hlo.
      unfold mathLog at 1 in Hhi.
      destruct (Rltb r 0) eqn:Hneg; [discriminate | ].
      apply Rltb_ge in Hneg.
      rewrite (Reqb_true r 0) in Hlo, Hhi by lra.
      destruct (mathLog (base s)) as [| | |l]; simpl in Hlo, Hhi;
        try discriminate.
      destruct (Rltb l 0); simpl in Hlo, Hhi;
        [destruct (snd (_extent s)); discriminate | ].
      destruct (fst (_extent s)); discriminate.
    + unfold scaleHelper.contain, ge.
      now rewrite (lt_le _ _ Hlo), (lt_le _ _ Hhi).
Qed.

Lemma contain_nonpositive_false_inside_true_witness :
  let s := mkLogScale (Fin 10) (Fin (-1), Fin 2) IntervalScale.create
             false false (Fin 0) None in
  contain s (Fin (-3)) = false /\ contain s (Fin 1) = true.
Proof.
  cbv zeta. split.
  - apply (contain_nonpositive_false_inside_true _ (Fin (-3))).
    cbn [le]. apply Rleb_true. lra.
  - apply (contain_nonpositive_false_inside_true _ (Fin 1));
      cbn [base _extent fst snd];
      rewrite logb_pos by lra; rewrite ln_1;
      cbn [lt]; apply Rltb_true; unfold Rdiv; rewrite Rmult_0_l; lra.
Defined.

(** ** Widening the extent *)

(** C5: with an accessor that reports [[-10, 50]] for the dimension,
    [unionExtentFromData] ends in the same scale (log-space extent and
    original linear extent alike) as [unionExtent([0, 50])], and leaves
    the same contents in the array it passed on. *)
Theorem unionExtentFromData_clamps_before_union
  (s : LogScale) (data : SeriesData) (dim : DimensionName) :
  getApproximateExtent data dim = (Fin (-10), Fin 50) ->
  unionExtentFromData s data dim = unionExtent s (Fin 0, Fin 50).
Proof.
  intros Hdata. unfold unionExtentFromData. rewrite Hdata.
  cbn [fst snd le].
  rewrite (Rleb_true (-10) 0) by lra.
  cbn [fst snd le].
  now rewrite (Rleb_false 50 0) by lra.
Qed.

Lemma unionExtentFromData_clamps_before_union_witness :
  let data := mkSeriesData (fun _ => (Fin (-10), Fin 50)) in
  unionExtentFromData newLogScale data String.EmptyString
  = unionExtent newLogScale (Fin 0, Fin 50).
Proof.
  apply unionExtentFromData_clamps_before_union. reflexivity.
Defined.

(** C10: [unionExtent] overwrites its argument with the log-space images
    of the two bounds (0 for a bound [<= 0], [log v / log base]
    otherwise), the original scale is widened by the bounds as they were
    passed in, and the log-space extent is widened by the images. *)
Theorem unionExtent_overwrites_argument (s : LogScale) (e : Extent) :
  let image v :=
    if le v (Fin 0) then Fin 0 else div (mathLog v) (mathLog (base s)) in
  snd (unionExtent s e) = (image (fst e), image (snd e))
  /\ IntervalScale.extent (_originalScale (fst (unionExtent s e)))
     = Scale.unionExtent (IntervalScale.extent (_originalScale s)) e
  /\ _extent (fst (unionExtent s e))
     = Scale.unionExtent (_extent s) (image (fst e), image (snd e)).
Proof.
  unfold unionExtent, logOrZero. cbn. repeat split.
Qed.

(** ** Nice ticks *)

(** C4: when the log-space span is [Infinity] or [<= 0], [calcNiceTicks]
    returns at once and the scale, its interval and nice extent included,
    is as it was. *)
Theorem calcNiceTicks_degenerate_span_noop
  {NU : NumberUtil} (fuel : nat) (s : LogScale) (n : number) :
  strictEq (sub (snd (_extent s)) (fst (_extent s))) PosInf = true
  \/ le (sub (snd (_extent s)) (fst (_extent s))) (Fin 0) = true ->
  calcNiceTicks fuel s n = Some s
  /\ (forall s', calcNiceTicks fuel s n = Some s' ->
        _interval s' = _interval s /\ _niceExtent s' = _niceExtent s).
Proof.
  intros Hspan.
  assert (Hcall : calcNiceTicks fuel s n = Some s).
  { unfold calcNiceTicks. cbv zeta.
    destruct Hspan as [H | H]; rewrite H; [reflexivity | ].
    now rewrite orb_true_r. }
  split; [exact Hcall | ].
  intros s' Hs'. rewrite Hcall in Hs'. injection Hs' as <-. now split.
Qed.

Lemma calcNiceTicks_degenerate_span_noop_witness :
  @calcNiceTicks specNumberUtil 0 newLogScale (Fin 10) = Some newLogScale.
Proof.
  apply (@calcNiceTicks_degenerate_span_noop specNumberUtil 0 newLogScale).
  right. reflexivity.
Defined.

(** *** The interval-growing loop *)

(** When the loop guard fails the interval is [NaN], zero, or of
    magnitude at least 1 (the infinities included). *)
Lemma growGuard_false_shape (y : number) :
  growGuard y = false ->
  isNaN y = true \/ y = Fin 0 \/ le (Fin 1) (mathAbs y) = true.
Proof.
  unfold growGuard, gt. destruct y as [| | |r]; simpl; auto.
  intros H.
  destruct (Rltb (Rabs r) 1) eqn:H1.
  - destruct (Rltb 0 (Rabs r)) eqn:H0; [discriminate | ].
    apply Rltb_ge in H0. right. left. f_equal.
    destruct (Req_dec_T r 0) as [-> | Hr]; [reflexivity | ].
    pose proof (Rabs_pos_lt r Hr). lra.
  - apply Rltb_ge in H1. right. right. now apply Rleb_true.
Qed.

(** [fuel] rounds are enough once [|r| * 10 ^ fuel] reaches 1. *)
Lemma growInterval_enough (fuel : nat) : forall r : R,
  1 <= Rabs r * 10 ^ fuel ->
  exists y, growInterval fuel (Fin r) = Some y /\ growGuard y = false.
Proof.
  induction fuel as [| fuel IH]; intros r Hr.
  - simpl in Hr. simpl.
    assert (Hg : growGuard (Fin r) = false).
    { unfold growGuard. simpl.
      now rewrite (Rltb_false (Rabs r) 1) by lra. }
    rewrite Hg. eauto.
  - cbn [growInterval]. destruct (growGuard (Fin r)) eqn:Hg.
    + cbn [mul]. apply IH. rewrite Rabs_mult, (Rabs_right 10) by lra.
      simpl in Hr. lra.
    + eauto.
Qed.

(** The loop terminates on every input: some amount of fuel yields the
    first iterate on which the guard fails, and that is the input itself
    when the guard fails at once. *)
Lemma growInterval_terminates (x : number) :
  exists fuel y,
    growInterval fuel x = Some y /\ growGuard y = false
    /\ (growGuard x = false -> y = x).
Proof.
  destruct (growGuard x) eqn:Hg.
  2:{ exists 0%nat, x. simpl. rewrite Hg. auto. }
  destruct x as [| | |r]; try discriminate.
  assert (Hr : 0 < Rabs r).
  { unfold growGuard, gt in Hg. simpl in Hg.
    destruct (Rltb 0 (Rabs r)) eqn:H0; [now apply Rltb_lt in H0 | ].
    now rewrite andb_false_r in Hg. }
  destruct (Pow_x_infinity 10 ltac:(rewrite Rabs_right; lra) (/ Rabs r))
    as [N HN].
  specialize (HN N (Nat.le_refl N)).
  rewrite Rabs_right in HN by (apply Rle_ge; apply pow_le; lra).
  destruct (growInterval_enough N r) as [y [Hy Hgy]].
  { apply Rge_le in HN.
    apply (Rmult_le_compat_l (Rabs r)) in HN; [ | lra].
    rewrite Rinv_r in HN by lra. exact HN. }
  exists N, y. repeat split; try assumption. intros; discriminate.
Qed.

(** C7 (as the code has it): on a span that is neither [Infinity] nor
    [<= 0], [calcNiceTicks] returns (with enough fuel for its loop), the
    loop body runs exactly when the guard holds on the seeded interval,
    and the interval stored in the end is [NaN], zero, or of magnitude at
    least 1. *)
Theorem calcNiceTicks_loop_exit
  {NU : NumberUtil} (s : LogScale) (n : number) :
  let span := sub (snd (_extent s)) (fst (_extent s)) in
  let seed := seedInterval (if truthy n then n else Fin 10) span in
  (strictEq span PosInf || le span (Fin 0)) = false ->
  exists fuel s',
    calcNiceTicks fuel s n = Some s'
    /\ (isNaN (_interval s') = true \/ _interval s' = Fin 0
        \/ le (Fin 1) (mathAbs (_interval s')) = true)
    /\ (growGuard seed = false -> _interval s' = seed)
    /\ (growGuard seed = true -> _interval s' <> seed).
Proof.
  intros span seed Hspan.
  destruct (growInterval_terminates seed) as [fuel [y [Hy [Hgy Hsame]]]].
  exists fuel. eexists. split.
  - unfold calcNiceTicks. cbv zeta. fold span. rewrite Hspan.
    fold seed. rewrite Hy. reflexivity.
  - cbn [_interval withNiceTicks]. repeat split.
    + now apply growGuard_false_shape.
    + exact Hsame.
    + intros Hg Heq. rewrite Heq, Hg in Hgy. discriminate.
Qed.

Lemma calcNiceTicks_loop_exit_witness :
  let s := mkLogScale (Fin 10) (Fin 0, Fin 2) IntervalScale.create
             false false (Fin 0) None in
  exists fuel s',
    @calcNiceTicks specNumberUtil fuel s (Fin 10) = Some s'
    /\ (isNaN (_interval s') = true \/ _interval s' = Fin 0
        \/ le (Fin 1) (mathAbs (_interval s')) = true).
Proof.
  cbv zeta.
  destruct (@calcNiceTicks_loop_exit specNumberUtil
              (mkLogScale (Fin 10) (Fin 0, Fin 2) IntervalScale.create
                 false false (Fin 0) None) (Fin 10))
    as [fuel [s' [Hcall [Hshape _]]]].
  - cbn [_extent fst snd sub strictEq le orb]. apply Rleb_false. lra.
  - exists fuel, s'. split; assumption.
Defined.

(** *** The loop on a span below 1 *)

Lemma Rdiv_bounds (a l lo hi : R) :
  0 < l -> lo * l <= a -> a < hi * l -> lo <= a / l < hi.
Proof.
  intros Hl Hlo Hhi. unfold Rdiv.
  assert (Hi : 0 < / l) by now apply Rinv_0_lt_compat.
  assert (Hli : l * / l = 1) by (apply Rinv_r; lra).
  split.
  - replace lo with (lo * l * / l) by (rewrite Rmult_assoc, Hli; lra).
    apply Rmult_le_compat_r; lra.
  - replace hi with (hi * l * / l) by (rewrite Rmult_assoc, Hli; lra).
    apply Rmult_lt_compat_r; lra.
Qed.

Lemma ln_2_10_bounds : ln 2 < ln 10 /\ ln 10 < 4 * ln 2.
Proof.
  split.
  - apply ln_increasing; lra.
  - assert (H16 : ln 16 = 4 * ln 2).
    { replace 16 with (2 ^ 4) by lra. rewrite ln_pow by lra. simpl. lra. }
    rewrite <- H16. apply ln_increasing; lra.
Qed.

(** The decimal logarithm of 2 lies between 1/4 and 1. *)
Lemma log10_2_bounds : / 4 <= ln 2 / ln 10 < 1.
Proof.
  pose proof ln_2_10_bounds as [H1 H2]. pose proof ln_10_pos.
  apply Rdiv_bounds; lra.
Qed.

Lemma Rpower_10_m1 : Rpower 10 (-1) = / 10.
Proof.
  replace (-1) with (- (1)) by lra.
  rewrite Rpower_Ropp, Rpower_1 by lra. reflexivity.
Qed.

(** The reference step of a span in [[0.1, 1)] is 0.1. *)
Lemma quantity_small (sp : R) :
  / 10 <= sp -> sp < 1 -> numberUtil.quantity (Fin sp) = Fin (/ 10).
Proof.
  intros Hlo Hhi. unfold numberUtil.quantity.
  rewrite logb_pos by lra. cbn [mathFloor].
  assert (Hfl : Zfloor (ln sp / ln 10) = (-1)%Z).
  { apply Zfloor_eq. pose proof ln_10_pos.
    replace (IZR (-1) + 1) with 0 by lra.
    apply Rdiv_bounds; [assumption | | ].
    - replace (IZR (-1) * ln 10) with (ln (/ 10)) by (rewrite ln_Rinv; lra).
      apply ln_le; lra.
    - rewrite Rmult_0_l, <- ln_1. apply ln_increasing; lra. }
  rewrite Hfl, mathPow_pos by lra. f_equal. apply Rpower_10_m1.
Qed.

(** C7 as stated fails: after [setExtent(1, 2)] on the fresh base-10
    scale, [calcNiceTicks(10)] passes the span test, seeds the interval
    with 0.1, finds the loop guard true and leaves the loop with the
    interval 1 after one round. *)
Lemma calcNiceTicks_loop_runs_below_one :
  let s := setExtent newLogScale (Fin 1) (Fin 2) in
  let span := sub (snd (_extent s)) (fst (_extent s)) in
  (strictEq span PosInf || le span (Fin 0)) = false
  /\ @seedInterval specNumberUtil (Fin 10) span = Fin (/ 10)
  /\ growGuard (@seedInterval specNumberUtil (Fin 10) span) = true
  /\ exists s', @calcNiceTicks specNumberUtil 1 s (Fin 10) = Some s'
                /\ _interval s' = Fin 1.
Proof.
  pose proof log10_2_bounds as [Hlo Hhi].
  assert (H1 : ln 1 / ln 10 = 0).
  { rewrite ln_1. unfold Rdiv. apply Rmult_0_l. }
  assert (Hext : _extent (setExtent newLogScale (Fin 1) (Fin 2))
                 = (Fin 0, Fin (ln 2 / ln 10))).
  { unfold setExtent, IntervalScale.setExtent. simpl. decide_R.
    rewrite !mathLog_pos by lra. simpl.
    rewrite (Reqb_false (ln 10) 0) by (pose proof ln_10_pos; lra).
    now rewrite H1. }
  cbv zeta. rewrite Hext. cbn [fst snd sub].
  assert (Hspan : (strictEq (Fin (ln 2 / ln 10 - 0)) PosInf
                   || le (Fin (ln 2 / ln 10 - 0)) (Fin 0)) = false).
  { cbn [strictEq le orb]. apply Rleb_false. lra. }
  assert (Hseed : @seedInterval specNumberUtil (Fin 10)
                    (Fin (ln 2 / ln 10 - 0)) = Fin (/ 10)).
  { unfold seedInterval. cbn [quantity specNumberUtil].
    rewrite quantity_small by lra. cbn [div].
    rewrite (Reqb_false (ln 2 / ln 10 - 0) 0) by lra. cbn [mul le].
    rewrite Rleb_false; [reflexivity | ].
    assert (Hinv : 1 < / (ln 2 / ln 10 - 0)).
    { rewrite <- Rinv_1 at 1. apply Rinv_lt_contravar; lra. }
    unfold Rdiv. lra. }
  assert (Hg : growGuard (Fin (/ 10)) = true).
  { unfold growGuard, gt. cbn [isNaN negb mathAbs lt andb].
    rewrite Rabs_right by lra. now decide_R. }
  repeat split.
  - exact Hspan.
  - exact Hseed.
  - now rewrite Hseed.
  - unfold calcNiceTicks. cbv zeta. rewrite Hext. cbn [fst snd sub truthy].
    rewrite (Reqb_false 10 0) by lra. cbn [negb].
    rewrite Hspan, Hseed. cbn [growInterval]. rewrite Hg. cbn [mul].
    assert (Hg1 : growGuard (Fin (/ 10 * 10)) = false).
    { unfold growGuard, gt. cbn [isNaN negb mathAbs lt andb].
      rewrite Rabs_right by lra. now decide_R. }
    rewrite Hg1. eexists. split; [reflexivity | ].
    cbn [_interval withNiceTicks]. f_equal. lra.
Qed.

(** ** Reading back an extent that was set *)

(** [getExtent] after [setExtent] on positive bounds, base positive and
    not 1: each bound comes back exactly, or, under its fix flag, rounded
    to the precision of the matching bound of the original scale. *)
Lemma getExtent_setExtent_pos
  {NU : NumberUtil} (s : LogScale) (b a c : R) :
  base s = Fin b -> 0 < b -> b <> 1 -> 0 < a -> 0 < c ->
  getExtent (setExtent s (Fin a) (Fin c)) =
    (if _fixMin s
     then fixRoundingError (Fin a)
            (fst (IntervalScale.getExtent (_originalScale s)))
     else Fin a,
     if _fixMax s
     then fixRoundingError (Fin c)
            (snd (IntervalScale.getExtent (_originalScale s)))
     else Fin c).
Proof.
  intros Hbase Hb Hb1 Ha Hc.
  unfold getExtent, setExtent, IntervalScale.setExtent, Scale.getExtent.
  cbn [base _extent _fixMin _fixMax _originalScale withExtent fst snd le].
  rewrite Hbase.
  rewrite (Rleb_false a 0), (Rleb_false c 0) by lra.
  rewrite !logb_pos by assumption.
  rewrite !mathPow_pos by assumption.
  rewrite !Rpower_log by assumption.
  destruct (_fixMin s), (_fixMax s); reflexivity.
Qed.

(** C8 (as the code has it): for positive bounds and a positive base
    other than 1, [setExtent(a, b)] leaves the original scale alone and
    [getExtent()] then returns [a] and [b] themselves where the fix flag
    is unset, and [a], [b] rounded to the decimal precision of the
    original scale's minimum, maximum where it is set. *)
Theorem getExtent_recovers_setExtent
  {NU : NumberUtil} (s : LogScale) (b a c : R) :
  base s = Fin b -> 0 < b -> b <> 1 -> 0 < a -> 0 < c ->
  let original := IntervalScale.getExtent (_originalScale s) in
  getExtent (setExtent s (Fin a) (Fin c)) =
    (if _fixMin s
     then round (Fin a) (Some (getPrecision (fst original)))
     else Fin a,
     if _fixMax s
     then round (Fin c) (Some (getPrecision (snd original)))
     else Fin c)
  /\ _originalScale (setExtent s (Fin a) (Fin c)) = _originalScale s.
Proof.
  intros Hbase Hb Hb1 Ha Hc original. split; [ | reflexivity ].
  now rewrite (getExtent_setExtent_pos s b a c).
Qed.

Lemma getExtent_recovers_setExtent_witness :
  @getExtent specNumberUtil (setExtent newLogScale (Fin 2.4) (Fin 50))
  = (Fin 2.4, Fin 50).
Proof.
  apply (@getExtent_recovers_setExtent specNumberUtil newLogScale 10 2.4 50);
    try reflexivity; lra.
Defined.

(** Evaluating the reference precision and rounding. *)

Lemma isInteger_IZR (r : R) (z : Z) : r = IZR z -> isInteger r = true.
Proof. intros ->. unfold isInteger. rewrite ZfloorZ. now apply Reqb_true. Qed.

Lemma isInteger_between (r : R) (z : Z) :
  IZR z < r < IZR z + 1 -> isInteger r = false.
Proof.
  intros H. unfold isInteger. rewrite (Zfloor_eq z) by lra.
  apply Reqb_false. lra.
Qed.

Lemma getPrecision_1 : numberUtil.getPrecision (Fin 1) = 0%nat.
Proof.
  unfold numberUtil.getPrecision. cbn [numberUtil.decimalPlaces].
  rewrite (isInteger_IZR _ 1); [reflexivity | simpl; lra].
Qed.

Lemma getPrecision_2 : numberUtil.getPrecision (Fin 2) = 0%nat.
Proof.
  unfold numberUtil.getPrecision. cbn [numberUtil.decimalPlaces].
  rewrite (isInteger_IZR _ 2); [reflexivity | simpl; lra].
Qed.

Lemma getPrecision_2_4 : numberUtil.getPrecision (Fin 2.4) = 1%nat.
Proof.
  unfold numberUtil.getPrecision. cbn [numberUtil.decimalPlaces].
  rewrite (isInteger_between _ 2) by (simpl; lra).
  rewrite (isInteger_IZR _ 24); [reflexivity | simpl; lra].
Qed.

Lemma roundTo_0_2_4 : numberUtil.roundTo 0 2.4 = 2.
Proof.
  unfold numberUtil.roundTo.
  rewrite (Zfloor_eq 2) by (simpl; lra). simpl. lra.
Qed.

(** C8 as stated fails under the fix flags: on the scale widened by
    [unionExtent([1, 100])] with both flags set, [setExtent(2.4, 50)]
    followed by [getExtent()] reports the minimum 2, which is neither the
    input 2.4 nor of its decimal precision: it has the precision of the
    original minimum 1. *)
Lemma getExtent_fixed_follows_original_precision :
  let s :=
    withFix (fst (unionExtent newLogScale (Fin 1, Fin 100))) true true in
  let r := fst (@getExtent specNumberUtil (setExtent s (Fin 2.4) (Fin 50))) in
  r = Fin 2 /\ r <> Fin 2.4
  /\ numberUtil.getPrecision r <> numberUtil.getPrecision (Fin 2.4).
Proof.
  cbv zeta.
  rewrite (@getExtent_setExtent_pos specNumberUtil _ 10 2.4 50);
    [ | reflexivity | lra | lra | lra | lra ].
  cbn [fst _fixMin withFix].
  assert (Hr : @fixRoundingError specNumberUtil (Fin 2.4)
            (fst (IntervalScale.getExtent
               (_originalScale
                  (withFix (fst (unionExtent newLogScale (Fin 1, Fin 100)))
                     true true)))) = Fin 2).
  { replace (IntervalScale.getExtent
               (_originalScale
                  (withFix (fst (unionExtent newLogScale (Fin 1, Fin 100)))
                     true true))) with (Fin 1, Fin 100) by reflexivity.
    unfold fixRoundingError. cbn [fst round getPrecision specNumberUtil].
    rewrite getPrecision_1. cbn [numberUtil.round].
    f_equal. apply roundTo_0_2_4. }
  rewrite Hr. repeat split.
  - intros H. injection H as H. lra.
  - rewrite getPrecision_2, getPrecision_2_4. discriminate.
Qed.

(** The in-place effect of [unionExtent] on the fresh base-10 scale: the
    argument [[-5, 100]] comes back as its log-space image, and the
    original scale holds the bounds as passed. *)
Example unionExtent_in_place_example :
  snd (unionExtent newLogScale (Fin (-5), Fin 100))
  = (Fin 0, Fin (ln 100 / ln 10))
  /\ IntervalScale.extent
       (_originalScale (fst (unionExtent newLogScale (Fin (-5), Fin 100))))
     = (Fin (-5), Fin 100).
Proof.
  split.
  - unfold unionExtent, logOrZero. cbn [snd fst base withOriginalScale
      newLogScale le].
    rewrite (Rleb_true (-5) 0), (Rleb_false 100 0) by lra.
    now rewrite logb_pos by lra.
  - reflexivity.
Qed.

(** ** Supporting facts *)

(** Whatever step function stands behind [quantity]: when it returns a
    positive step not above the span, the loop guard of [calcNiceTicks]
    holds on every span below 1 at the default tick count. *)
Lemma seedInterval_small_span_guard {NU : NumberUtil} (sp q : R) :
  0 < sp -> sp < 1 -> quantity (Fin sp) = Fin q -> 0 < q -> q <= sp ->
  growGuard (seedInterval (Fin 10) (Fin sp)) = true.
Proof.
  intros Hsp Hsp1 Hq Hq0 Hqsp.
  unfold seedInterval. rewrite Hq. cbn [div].
  rewrite (Reqb_false sp 0) by lra. cbn [mul le].
  assert (Hguard : forall r, 0 < r -> r < 1 -> growGuard (Fin r) = true).
  { intros r Hr0 Hr1. unfold growGuard, gt.
    cbn [isNaN negb mathAbs lt andb].
    rewrite Rabs_right by lra.
    now rewrite (Rltb_true r 1), (Rltb_true 0 r) by lra. }
  destruct (Rleb (10 / sp * q) 0.5) eqn:Herr.
  - apply Rleb_le in Herr. apply Hguard; [lra | ].
    assert (Hmul : 10 / sp * q * sp <= 0.5 * sp).
    { apply Rmult_le_compat_r; lra. }
    replace (10 / sp * q * sp) with (10 * q) in Hmul by (field; lra).
    lra.
  - apply Hguard; lra.
Qed.

(** For a base above 1 and the minimum fix flag unset, the test of
    [getTicks] on the log-space minimum is the test "the linear minimum
    reported by [getExtent] is at most 1". *)
Lemma linear_min_le_one_iff_log_min
  {NU : NumberUtil} (s : LogScale) (b e0 : R) :
  base s = Fin b -> 1 < b -> fst (_extent s) = Fin e0 -> _fixMin s = false ->
  le (fst (getExtent s)) (Fin 1) = le (fst (_extent s)) (Fin 0).
Proof.
  intros Hbase Hb He0 Hfix.
  unfold getExtent, Scale.getExtent. cbn [fst snd]. rewrite Hfix, Hbase, He0.
  assert (H : le (mathPow (Fin b) (Fin e0)) (Fin 1) = le (Fin e0) (Fin 0)).
  { rewrite mathPow_pos by lra. cbn [le].
    destruct (Rleb e0 0) eqn:He.
    - apply Rleb_le in He. apply Rleb_true.
      rewrite <- (Rpower_O b) by lra. apply Rle_Rpower; lra.
    - apply Rleb_gt in He. apply Rleb_false.
      rewrite <- (Rpower_O b) at 1 by lra. apply Rpower_lt; lra. }
  destruct (_fixMax s); exact H.
Qed.


(** ** Further properties of the scale *)

Lemma Rpower_gt_0 (b e : R) : 0 < Rpower b e.
Proof. unfold Rpower. apply exp_pos. Qed.

Lemma logb_Rpower (b e : R) : 0 < b -> b <> 1 -> ln (Rpower b e) / ln b = e.
Proof.
  intros Hb Hb1. rewrite ln_Rpower. field. now apply ln_neq_0.
Qed.

Lemma withExtent_same (s : LogScale) : withExtent s (_extent s) = s.
Proof. now destruct s. Qed.

(** [getExtent] on a finite extent with both fix flags unset. *)
Lemma getExtent_finite {NU : NumberUtil} (s : LogScale) (b e0 e1 : R) :
  base s = Fin b -> 0 < b -> _extent s = (Fin e0, Fin e1) ->
  _fixMin s = false -> _fixMax s = false ->
  getExtent s = (Fin (Rpower b e0), Fin (Rpower b e1)).
Proof.
  intros Hbase Hb Hext Hmin Hmax.
  unfold getExtent, Scale.getExtent. rewrite Hbase, Hext, Hmin, Hmax.
  cbn [fst snd]. now rewrite !mathPow_pos by assumption.
Qed.


(** X1: for a positive base other than 1, [setExtent] cannot tell a bound
    [<= 0] from the bound 1: either stores the log-space 0. *)
Theorem setExtent_nonpositive_as_one
  (s : LogScale) (b : R) (x other : number) :
  base s = Fin b -> 0 < b -> b <> 1 -> le x (Fin 0) = true ->
  setExtent s x other = setExtent s (Fin 1) other
  /\ setExtent s other x = setExtent s other (Fin 1).
Proof.
  intros Hbase Hb Hb1 Hx.
  assert (H1 : (if le (Fin 1) (Fin 0) then Fin 0
                else div (mathLog (Fin 1)) (mathLog (base s))) = Fin 0).
  { cbn [le]. rewrite (Rleb_false 1 0) by lra.
    rewrite Hbase, logb_pos by (assumption || lra).
    f_equal. rewrite ln_1. unfold Rdiv. apply Rmult_0_l. }
  unfold setExtent. cbv zeta. now rewrite Hx, H1.
Qed.

Lemma setExtent_nonpositive_as_one_witness :
  setExtent newLogScale (Fin (-5)) (Fin 100)
  = setExtent newLogScale (Fin 1) (Fin 100).
Proof.
  apply (setExtent_nonpositive_as_one newLogScale 10 (Fin (-5)) (Fin 100));
    try reflexivity; try lra.
  cbn [le]. apply Rleb_true. lra.
Defined.

(** X2: on a finite extent, with a positive base other than 1 and both fix
    flags unset, feeding the pair reported by [getExtent] back into
    [setExtent] gives the scale back unchanged. *)
Theorem setExtent_of_getExtent
  {NU : NumberUtil} (s : LogScale) (b e0 e1 : R) :
  base s = Fin b -> 0 < b -> b <> 1 ->
  _extent s = (Fin e0, Fin e1) ->
  _fixMin s = false -> _fixMax s = false ->
  setExtent s (fst (getExtent s)) (snd (getExtent s)) = s.
Proof.
  intros Hbase Hb Hb1 Hext Hmin Hmax.
  rewrite (getExtent_finite s b e0 e1) by assumption. cbn [fst snd].
  unfold setExtent, IntervalScale.setExtent. cbv zeta. rewrite Hbase.
  cbn [le].
  rewrite !Rleb_false by apply Rpower_gt_0.
  rewrite !logb_pos by (assumption || apply Rpower_gt_0).
  rewrite !logb_Rpower by assumption.
  rewrite <- Hext. apply withExtent_same.
Qed.

Lemma setExtent_of_getExtent_witness :
  let s := mkLogScale (Fin 10) (Fin 0, Fin 2) IntervalScale.create
             false false (Fin 0) None in
  setExtent s (fst (@getExtent specNumberUtil s))
    (snd (@getExtent specNumberUtil s)) = s.
Proof.
  apply (@setExtent_of_getExtent specNumberUtil _ 10 0 2);
    try reflexivity; lra.
Defined.



(** X4: on a finite extent with distinct bounds and a positive base other
    than 1, [normalize (scale x)] is [x] for every positive [x]. *)
Theorem normalize_after_scale (s : LogScale) (b x e0 e1 : R) :
  base s = Fin b -> 0 < b -> b <> 1 ->
  _extent s = (Fin e0, Fin e1) -> e0 <> e1 -> 0 < x ->
  normalize s (scale s (Fin x)) = Fin x.
Proof.
  intros Hbase Hb Hb1 Hext He Hx.
  rewrite (scale_pos s b x e0 e1) by assumption.
  rewrite (normalize_pos s b _ e0 e1)
    by (assumption || apply Rpower_gt_0).
  rewrite logb_Rpower by assumption. f_equal. field. lra.
Qed.

Lemma normalize_after_scale_witness :
  let s := mkLogScale (Fin 10) (Fin 0, Fin 2) IntervalScale.create
             false false (Fin 0) None in
  normalize s (scale s (Fin 0.5)) = Fin 0.5.
Proof.
  apply (normalize_after_scale _ 10 0.5 0 2); try reflexivity; lra.
Defined.








Lemma logOrZero_clamped (b v : number) :
  logOrZero b (if le v (Fin 0) then Fin 0 else v) = logOrZero b v.
Proof.
  destruct (le v (Fin 0)) eqn:Hv; [ | reflexivity].
  unfold logOrZero. rewrite Hv. cbn [le]. now rewrite (Rleb_true 0 0) by lra.
Qed.

(** X8: the clamp of [unionExtentFromData] does not change the log-space
    outcome: the log-space extent and the final argument array are those
    of [unionExtent] on the raw range; only the original scale differs,
    being widened by the clamped bounds. *)
Theorem unionExtentFromData_same_log_extent
  (s : LogScale) (data : SeriesData) (dim : DimensionName) :
  let raw := getApproximateExtent data dim in
  let clamp v := if le v (Fin 0) then Fin 0 else v in
  _extent (fst (unionExtentFromData s data dim))
  = _extent (fst (unionExtent s raw))
  /\ snd (unionExtentFromData s data dim) = snd (unionExtent s raw)
  /\ IntervalScale.extent
       (_originalScale (fst (unionExtentFromData s data dim)))
     = Scale.unionExtent (IntervalScale.extent (_originalScale s))
         (clamp (fst raw), clamp (snd raw)).
Proof.
  cbv zeta. unfold unionExtentFromData.
  destruct (getApproximateExtent data dim) as [lo hi]. cbn [fst snd].
  assert (Hpair :
    (if le (snd (if le lo (Fin 0) then (Fin 0, hi) else (lo, hi))) (Fin 0)
     then (fst (if le lo (Fin 0) then (Fin 0, hi) else (lo, hi)), Fin 0)
     else if le lo (Fin 0) then (Fin 0, hi) else (lo, hi))
    = (if le lo (Fin 0) then Fin 0 else lo,
       if le hi (Fin 0) then Fin 0 else hi)).
  { destruct (le lo (Fin 0)); cbn [fst snd]; destruct (le hi (Fin 0));
      reflexivity. }
  rewrite Hpair. unfold unionExtent. cbn [fst snd _extent base
    withOriginalScale withExtent _originalScale IntervalScale.unionExtent
    IntervalScale.extent].
  rewrite !logOrZero_clamped. repeat split.
Qed.

(** The log-space extent and argument after [unionExtent] on positive
    bounds. *)
Lemma unionExtent_pos (s : LogScale) (b lo hi : R) :
  base s = Fin b -> 0 < b -> b <> 1 -> 0 < lo -> 0 < hi ->
  _extent (fst (unionExtent s (Fin lo, Fin hi)))
  = Scale.unionExtent (_extent s) (Fin (ln lo / ln b), Fin (ln hi / ln b)).
Proof.
  intros Hbase Hb Hb1 Hlo Hhi.
  unfold unionExtent, logOrZero.
  cbn [fst snd _extent base withOriginalScale withExtent le].
  rewrite Hbase, (Rleb_false lo 0), (Rleb_false hi 0) by lra.
  now rewrite !logb_pos by assumption.
Qed.

(** X9: for a base above 1 and a stored extent free of [NaN], after
    [unionExtent([lo, hi])] with [0 < lo] every value between [lo] and
    [hi] is accepted by [contain]. *)
Theorem unionExtent_then_contain (s : LogScale) (b lo hi v : R) :
  base s = Fin b -> 1 < b ->
  isNaN (fst (_extent s)) = false -> isNaN (snd (_extent s)) = false ->
  0 < lo -> lo <= v -> v <= hi ->
  contain (fst (unionExtent s (Fin lo, Fin hi))) (Fin v) = true.
Proof.
  intros Hbase Hb Hn0 Hn1 Hlo Hv Hhi.
  assert (Hlnb : 0 < ln b) by (apply ln_pos; lra).
  assert (Hi : 0 < / ln b) by now apply Rinv_0_lt_compat.
  assert (H1 : ln lo / ln b <= ln v / ln b).
  { apply Rmult_le_compat_r; [lra | apply ln_le; lra]. }
  assert (H2 : ln v / ln b <= ln hi / ln b).
  { apply Rmult_le_compat_r; [lra | apply ln_le; lra]. }
  unfold contain. cbn [le]. rewrite (Rleb_false v 0) by lra.
  replace (base (fst (unionExtent s (Fin lo, Fin hi)))) with (base s)
    by reflexivity.
  rewrite Hbase, logb_pos by lra.
  rewrite (unionExtent_pos s b lo hi) by (assumption || lra).
  unfold scaleHelper.contain, Scale.unionExtent, ge, gt. cbn [fst snd].
  destruct (_extent s) as [e0 e1]. cbn [fst snd] in *.
  apply andb_true_intro. split.
  - destruct e0 as [| | |r0]; cbn [lt le]; try discriminate.
    + apply Rleb_true. lra.
    + reflexivity.
    + destruct (Rltb (ln lo / ln b) r0) eqn:H; cbn [le].
      * apply Rleb_true. lra.
      * apply Rltb_ge in H. apply Rleb_true. lra.
  - destruct e1 as [| | |r1]; cbn [lt le]; try discriminate.
    + reflexivity.
    + apply Rleb_true. lra.
    + destruct (Rltb r1 (ln hi / ln b)) eqn:H; cbn [le].
      * apply Rleb_true. lra.
      * apply Rltb_ge in H. apply Rleb_true. lra.
Qed.

Lemma unionExtent_then_contain_witness :
  contain (fst (unionExtent newLogScale (Fin 2, Fin 50))) (Fin 7) = true.
Proof.
  apply (unionExtent_then_contain newLogScale 10 2 50 7);
    try reflexivity; lra.
Defined.

(** X10: on a scale with the empty extent, both fix flags unset and a
    positive base other than 1, [unionExtent([lo, hi])] on positive
    bounds followed by [getExtent()] returns [[lo, hi]]. *)
Theorem unionExtent_empty_then_getExtent
  {NU : NumberUtil} (s : LogScale) (b lo hi : R) :
  base s = Fin b -> 0 < b -> b <> 1 ->
  _extent s = Scale.emptyExtent ->
  _fixMin s = false -> _fixMax s = false ->
  0 < lo -> 0 < hi ->
  getExtent (fst (unionExtent s (Fin lo, Fin hi))) = (Fin lo, Fin hi).
Proof.
  intros Hbase Hb Hb1 Hext Hmin Hmax Hlo Hhi.
  rewrite (getExtent_finite _ b (ln lo / ln b) (ln hi / ln b));
    try assumption.
  - now rewrite !Rpower_log by assumption.
  - rewrite (unionExtent_pos s b lo hi) by assumption.
    rewrite Hext. reflexivity.
Qed.

Lemma unionExtent_empty_then_getExtent_witness :
  @getExtent specNumberUtil (fst (unionExtent newLogScale (Fin 2, Fin 50)))
  = (Fin 2, Fin 50).
Proof.
  apply (@unionExtent_empty_then_getExtent specNumberUtil newLogScale 10);
    try reflexivity; lra.
Defined.



(** [calcNiceTicks(10)] on the base-10 scale with the log-space extent
    [[0, 0.5]]: the seed 0.1 is raised once. *)
Lemma calcNiceTicks_half_span :
  let s := mkLogScale (Fin 10) (Fin 0, Fin (/ 2)) IntervalScale.create
             false false (Fin 0) None in
  @seedInterval specNumberUtil (Fin 10) (Fin (/ 2 - 0)) = Fin (/ 10)
  /\ exists niceExtent,
       @calcNiceTicks specNumberUtil 1 s (Fin 10)
       = Some (withNiceTicks s (Fin (/ 10 * 10)) niceExtent).
Proof.
  cbv zeta.
  assert (Hseed : @seedInterval specNumberUtil (Fin 10) (Fin (/ 2 - 0))
                  = Fin (/ 10)).
  { unfold seedInterval. cbn [quantity specNumberUtil].
    rewrite quantity_small by lra. cbn [div].
    rewrite (Reqb_false (/ 2 - 0) 0) by lra. cbn [mul le].
    rewrite Rleb_false; [reflexivity | ].
    replace (10 / (/ 2 - 0)) with 20 by (field; lra). lra. }
  split; [exact Hseed | ].
  unfold calcNiceTicks. cbv zeta. cbn [_extent fst snd sub truthy].
  rewrite (Reqb_false 10 0) by lra. cbn [negb strictEq orb le].
  rewrite (Rleb_false (/ 2 - 0) 0) by lra. rewrite Hseed.
  assert (Hg : growGuard (Fin (/ 10)) = true).
  { unfold growGuard, gt. cbn [isNaN negb mathAbs lt andb].
    rewrite Rabs_right by lra. now decide_R. }
  assert (Hg1 : growGuard (Fin (/ 10 * 10)) = false).
  { unfold growGuard, gt. cbn [isNaN negb mathAbs lt andb].
    rewrite Rabs_right by lra. now decide_R. }
  cbn [growInterval]. rewrite Hg. cbn [mul]. rewrite Hg1.
  eexists. reflexivity.
Qed.


(** X12: on a finite extent with [e0 < e1], when [calcNiceTicks] stores a
    positive interval [i], the nice extent is the rounding of the least
    multiple of [i] not below [e0] and of the greatest multiple of [i] not
    above [e1]; each lies within one interval of its bound. *)
Theorem calcNiceTicks_niceExtent_within
  {NU : NumberUtil} (fuel : nat) (s s' : LogScale) (n : number)
  (e0 e1 i : R) :
  _extent s = (Fin e0, Fin e1) -> e0 < e1 ->
  calcNiceTicks fuel s n = Some s' ->
  _interval s' = Fin i -> 0 < i ->
  exists n0 n1 : R,
    _niceExtent s' = Some (round (Fin n0) None, round (Fin n1) None)
    /\ n0 = IZR (Zceil (e0 / i)) * i /\ n1 = IZR (Zfloor (e1 / i)) * i
    /\ e0 <= n0 < e0 + i /\ e1 - i < n1 <= e1.
Proof.
  intros Hext He Hcall Hint Hi.
  unfold calcNiceTicks in Hcall. cbv zeta in Hcall.
  rewrite Hext in Hcall. cbn [fst snd sub strictEq orb le] in Hcall.
  rewrite (Rleb_false (e1 - e0) 0) in Hcall by lra.
  destruct (growInterval fuel _) as [y | ]; [ | discriminate].
  injection Hcall as <-. cbn [_interval _niceExtent withNiceTicks] in *.
  subst y. cbn [div]. rewrite (Reqb_false i 0) by lra.
  cbn [mathCeil mathFloor mul].
  exists (IZR (Zceil (e0 / i)) * i), (IZR (Zfloor (e1 / i)) * i).
  split; [reflexivity | ]. split; [reflexivity | ]. split; [reflexivity | ].
  pose proof (Zceil_bound (e0 / i)) as [Hc1 Hc2].
  pose proof (Zfloor_bound (e1 / i)) as [Hf1 Hf2].
  assert (H0 : e0 / i * i = e0) by (field; lra).
  assert (H1 : e1 / i * i = e1) by (field; lra).
  assert (Ha : (IZR (Zceil (e0 / i)) - 1) * i < e0 / i * i)
    by (apply Rmult_lt_compat_r; assumption).
  assert (Hb : e0 / i * i <= IZR (Zceil (e0 / i)) * i)
    by (apply Rmult_le_compat_r; lra).
  assert (Hc : IZR (Zfloor (e1 / i)) * i <= e1 / i * i)
    by (apply Rmult_le_compat_r; lra).
  assert (Hd : e1 / i * i < (IZR (Zfloor (e1 / i)) + 1) * i)
    by (apply Rmult_lt_compat_r; assumption).
  rewrite H0 in Ha, Hb. rewrite H1 in Hc, Hd.
  split; lra.
Qed.

Lemma calcNiceTicks_niceExtent_within_witness :
  let s := mkLogScale (Fin 10) (Fin 0, Fin (/ 2)) IntervalScale.create
             false false (Fin 0) None in
  exists (s' : LogScale) (n0 n1 : R),
    @calcNiceTicks specNumberUtil 1 s (Fin 10) = Some s'
    /\ _niceExtent s'
       = Some (@round specNumberUtil (Fin n0) None,
               @round specNumberUtil (Fin n1) None)
    /\ 0 <= n0 /\ n1 <= / 2.
Proof.
  cbv zeta. destruct calcNiceTicks_half_span as [_ [ne Hcall]].
  set (s := mkLogScale (Fin 10) (Fin 0, Fin (/ 2)) IntervalScale.create
              false false (Fin 0) None) in *.
  assert (Hhalf : 0 < / 2) by lra.
  assert (Hi : 0 < / 10 * 10) by lra.
  destruct (@calcNiceTicks_niceExtent_within specNumberUtil 1 s _ (Fin 10)
              0 (/ 2) (/ 10 * 10) eq_refl Hhalf Hcall eq_refl Hi)
    as [n0 [n1 [Hne [_ [_ [H0 H1]]]]]].
  eexists _, n0, n1. split; [exact Hcall | ]. split; [exact Hne | lra].
Defined.

(** X13: [calcNiceTicks(0)] and [calcNiceTicks(NaN)] behave as
    [calcNiceTicks(10)]. *)
Theorem calcNiceTicks_falsy_count_is_ten
  {NU : NumberUtil} (fuel : nat) (s : LogScale) :
  calcNiceTicks fuel s (Fin 0) = calcNiceTicks fuel s (Fin 10)
  /\ calcNiceTicks fuel s NaN = calcNiceTicks fuel s (Fin 10).
Proof.
  unfold calcNiceTicks. cbv zeta. cbn [truthy].
  rewrite (Reqb_true 0 0), (Reqb_false 10 0) by lra.
  split; reflexivity.
Qed.

(** X14: when the data range is entirely [<= 0], [unionExtentFromData] on
    a scale with the empty extent stores the log-space extent [[0, 0]];
    then [calcNiceTicks] changes nothing, [getExtent] reports [[1, 1]]
    (fix flags unset) and [getTicks] starts with the tick 0. *)
Theorem unionExtentFromData_nonpositive_data
  {NU : NumberUtil} {IP : IntervalScaleProto}
  (s : LogScale) (data : SeriesData) (dim : DimensionName) :
  _extent s = Scale.emptyExtent ->
  le (fst (getApproximateExtent data dim)) (Fin 0) = true ->
  le (snd (getApproximateExtent data dim)) (Fin 0) = true ->
  let s' := fst (unionExtentFromData s data dim) in
  _extent s' = (Fin 0, Fin 0)
  /\ (forall fuel n, calcNiceTicks fuel s' n = Some s')
  /\ (_fixMin s = false -> _fixMax s = false ->
      getExtent s' = (Fin 1, Fin 1))
  /\ (forall expand, exists rest,
        getTicks s' expand = mkTick (Fin 0) :: rest).
Proof.
  intros Hext Hlo Hhi s'.
  assert (Hs' : _extent s' = (Fin 0, Fin 0)).
  { unfold s', unionExtentFromData.
    destruct (getApproximateExtent data dim) as [lo hi].
    cbn [fst snd] in *. rewrite Hlo. cbn [fst snd]. rewrite Hhi.
    unfold unionExtent, logOrZero.
    cbn [fst snd _extent base withOriginalScale withExtent le].
    rewrite (Rleb_true 0 0) by lra. rewrite Hext. reflexivity. }
  repeat split.
  - exact Hs'.
  - intros fuel n. unfold calcNiceTicks. cbv zeta. rewrite Hs'.
    cbn [fst snd sub strictEq orb le].
    now rewrite (Rleb_true (0 - 0) 0) by lra.
  - intros Hmin Hmax. unfold getExtent, Scale.getExtent. rewrite Hs'.
    replace (_fixMin s') with (_fixMin s) by reflexivity.
    replace (_fixMax s') with (_fixMax s) by reflexivity.
    rewrite Hmin, Hmax. cbn [fst snd]. now rewrite !mathPow_zero.
  - intros expand. unfold getTicks. cbv zeta. rewrite Hs'.
    cbn [fst le]. rewrite (Rleb_true 0 0) by lra. eauto.
Qed.

Lemma unionExtentFromData_nonpositive_data_witness :
  let data := mkSeriesData (fun _ => (Fin (-10), Fin (-2))) in
  let s' := fst (unionExtentFromData newLogScale data String.EmptyString) in
  _extent s' = (Fin 0, Fin 0)
  /\ @getExtent specNumberUtil s' = (Fin 1, Fin 1).
Proof.
  cbv zeta.
  destruct (@unionExtentFromData_nonpositive_data specNumberUtil
              (fixedTicks []) newLogScale
              (mkSeriesData (fun _ => (Fin (-10), Fin (-2))))
              String.EmptyString)
    as [He [_ [Hg _]]].
  - reflexivity.
  - cbn [getApproximateExtent fst le]. apply Rleb_true. lra.
  - cbn [getApproximateExtent snd le]. apply Rleb_true. lra.
  - split; [exact He | now apply Hg].
Defined.

(** X15: with base 1 and both fix flags unset, [setExtent] on positive
    bounds other than 1 followed by [getExtent()] returns [[NaN, NaN]]. *)
Theorem getExtent_base_one_is_NaN
  {NU : NumberUtil} (s : LogScale) (a c : R) :
  base s = Fin 1 ->
  _fixMin s = false -> _fixMax s = false ->
  0 < a -> a <> 1 -> 0 < c -> c <> 1 ->
  getExtent (setExtent s (Fin a) (Fin c)) = (NaN, NaN).
Proof.
  intros Hbase Hmin Hmax Ha Ha1 Hc Hc1.
  assert (Hpow : forall v : R, 0 < v -> v <> 1 ->
            mathPow (Fin 1) (div (mathLog (Fin v)) (mathLog (Fin 1))) = NaN).
  { intros v Hv Hv1. rewrite !mathLog_pos by lra. cbn [div].
    rewrite (Reqb_true (ln 1) 0) by apply ln_1.
    rewrite (Reqb_false (ln v) 0) by now apply ln_neq_0.
    unfold mathPow.
    destruct (Rltb (ln v) 0); cbn [infinity];
      rewrite Rabs_R1, (Rltb_false 1 1), (Reqb_true 1 1) by lra;
      reflexivity. }
  unfold getExtent, setExtent, IntervalScale.setExtent, Scale.getExtent.
  cbn [base _extent _fixMin _fixMax _originalScale withExtent fst snd le].
  rewrite Hbase, Hmin, Hmax.
  rewrite (Rleb_false a 0), (Rleb_false c 0) by lra.
  now rewrite !Hpow by assumption.
Qed.

Lemma getExtent_base_one_is_NaN_witness :
  let s := mkLogScale (Fin 1) Scale.emptyExtent IntervalScale.create
             false false (Fin 0) None in
  @getExtent specNumberUtil (setExtent s (Fin 2) (Fin 50)) = (NaN, NaN).
Proof.
  apply (@getExtent_base_one_is_NaN specNumberUtil _ 2 50);
    try reflexivity; lra.
Defined.

(** X16: for a positive base other than 1, finite inputs (zero and
    negative ones included) never put [NaN] or an infinity into the
    extent stored by [setExtent] or into the argument array rewritten by
    [unionExtent]. *)
Theorem stored_bounds_are_finite (s : LogScale) (b a c : R) :
  base s = Fin b -> 0 < b -> b <> 1 ->
  (exists e0 e1 : R,
     _extent (setExtent s (Fin a) (Fin c)) = (Fin e0, Fin e1))
  /\ (exists l0 l1 : R,
        snd (unionExtent s (Fin a, Fin c)) = (Fin l0, Fin l1)).
Proof.
  intros Hbase Hb Hb1.
  assert (Himg : forall v : R, exists l : R,
            (if le (Fin v) (Fin 0) then Fin 0
             else div (mathLog (Fin v)) (mathLog (Fin b))) = Fin l).
  { intros v. cbn [le]. destruct (Rleb v 0) eqn:Hv.
    - now exists 0.
    - apply Rleb_gt in Hv. rewrite logb_pos by assumption. eauto. }
  destruct (Himg a) as [la Hla]. destruct (Himg c) as [lc Hlc].
  split.
  - exists la, lc. unfold setExtent, IntervalScale.setExtent. cbv zeta.
    rewrite Hbase. cbn [_extent withExtent]. now rewrite Hla, Hlc.
  - exists la, lc. unfold unionExtent, logOrZero.
    cbn [fst snd base withOriginalScale]. rewrite Hbase.
    now rewrite Hla, Hlc.
Qed.

Lemma stored_bounds_are_finite_witness :
  exists e0 e1 : R,
    _extent (setExtent newLogScale (Fin 0) (Fin (-7))) = (Fin e0, Fin e1).
Proof.
  apply (stored_bounds_are_finite newLogScale 10 0 (-7));
    try reflexivity; lra.
Defined.

(** X17: on the empty extent [contain] rejects every value, and
    [getExtent] reports [[Infinity, 0]] for a base above 1 (fix flags
    unset). *)
Theorem empty_extent_reports_nothing
  {NU : NumberUtil} (s : LogScale) (b : R) (v : number) :
  _extent s = Scale.emptyExtent ->
  contain s v = false
  /\ (base s = Fin b -> 1 < b -> _fixMin s = false -> _fixMax s = false ->
      getExtent s = (PosInf, Fin 0)).
Proof.
  intros Hext. split.
  - unfold contain, scaleHelper.contain, ge. rewrite Hext.
    destruct (le v (Fin 0)); [reflexivity | ].
    cbn [fst snd Scale.emptyExtent].
    destruct (div (mathLog v) (mathLog (base s))); reflexivity.
  - intros Hbase Hb Hmin Hmax.
    unfold getExtent, Scale.getExtent. rewrite Hext, Hbase, Hmin, Hmax.
    cbn [fst snd Scale.emptyExtent]. unfold mathPow.
    rewrite Rabs_right by lra. now rewrite (Rltb_true 1 b).
Qed.

Lemma empty_extent_reports_nothing_witness :
  contain newLogScale (Fin 5) = false
  /\ @getExtent specNumberUtil newLogScale = (PosInf, Fin 0).
Proof.
  destruct (@empty_extent_reports_nothing specNumberUtil newLogScale 10
              (Fin 5) eq_refl) as [Hc Hg].
  split; [exact Hc | apply Hg; try reflexivity; lra].
Defined.

(** The loop guard on the span 0.5 with the reference utilities. *)
Lemma seedInterval_small_span_guard_witness :
  growGuard (@seedInterval specNumberUtil (Fin 10) (Fin (/ 2))) = true.
Proof.
  apply (@seedInterval_small_span_guard specNumberUtil (/ 2) (/ 10));
    try lra.
  cbn [quantity specNumberUtil]. apply quantity_small; lra.
Defined.

Lemma linear_min_le_one_iff_log_min_witness :
  let s := mkLogScale (Fin 10) (Fin 0, Fin 2) IntervalScale.create
             false false (Fin 0) None in
  le (fst (@getExtent specNumberUtil s)) (Fin 1)
  = le (fst (_extent s)) (Fin 0).
Proof.
  apply (@linear_min_le_one_iff_log_min specNumberUtil _ 10 0);
    try reflexivity; lra.
Defined.
